(** * bowling_game_calc: the tokenizer and the scorer of a ten-pin bowling game

    A shallow embedding of [src/bowling_game_calc.py] ([total_score],
    [regex_parse], [score]) and the properties its specification states.

    Python values are modelled as follows.
    - [int] is unbounded, hence [Z].
    - A [str] is a [string] of 8-bit characters.  On that range the regular
      expression class [\d] is exactly ['0'..'9'], and a one-character
      string compared with [is] against a literal behaves as [==].
    - A [list] is a [list]; indexing is fallible and follows Python
      (a negative index counts from the end, out of range raises
      [IndexError]); slices never fail.
    - An exception is a value [Raise e] of the [result] type. *)

From Equations Require Import Equations.
From Equations.Prop Require Import Logic.
From Stdlib Require Import List ZArith Bool Ascii String DecimalString Lia.
Import ListNotations.
Local Open Scope Z_scope.

(** ** Python primitives *)

Module Py.

Inductive exn : Set := ValueError | IndexError.

Inductive result (A : Type) : Type :=
| Ok (a : A)
| Raise (e : exn).
Arguments Ok {A} a.
Arguments Raise {A} e.

Definition bind {A B} (m : result A) (k : A -> result B) : result B :=
  match m with
  | Ok a => k a
  | Raise e => Raise e
  end.

(** [[f x for x in l]]: elements are evaluated from left to right and
    the first exception aborts the comprehension. *)
Fixpoint comprehension {A B} (f : A -> result B) (l : list A) : result (list B) :=
  match l with
  | [] => Ok []
  | x :: l' =>
      bind (f x) (fun y => bind (comprehension f l') (fun ys => Ok (y :: ys)))
  end.

(** [len(l)] *)
Definition len {A} (l : list A) : Z := Z.of_nat (List.length l).

(** [l[i]] *)
Definition getitem {A} (l : list A) (i : Z) : result A :=
  let j := if i <? 0 then i + len l else i in
  if j <? 0 then Raise IndexError
  else match nth_error l (Z.to_nat j) with
       | Some a => Ok a
       | None => Raise IndexError
       end.

(** [l[lo:hi]] and [l[lo:]] for literal bounds [0 <= lo <= hi]. *)
Definition slice {A} (l : list A) (lo hi : nat) : list A :=
  firstn (hi - lo) (skipn lo l).
Definition slice_from {A} (l : list A) (lo : nat) : list A := skipn lo l.

(** [sum(l)] *)
Definition sum (l : list Z) : Z := fold_left Z.add l 0.

(** [enumerate(l)] *)
Fixpoint enumerate_from {A} (idx : Z) (l : list A) : list (Z * A) :=
  match l with
  | [] => []
  | x :: l' => (idx, x) :: enumerate_from (idx + 1) l'
  end.
Definition enumerate {A} (l : list A) : list (Z * A) := enumerate_from 0 l.

(** [\d] on 8-bit characters *)
Definition is_digit (c : ascii) : bool :=
  let n := Z.of_nat (nat_of_ascii c) in (48 <=? n) && (n <=? 57).

(** The number a decimal digit stands for. *)
Definition digit_value (c : ascii) : Z := Z.of_nat (nat_of_ascii c) - 48.

(** [int(c)] for a one-character string [c]: anything but a decimal
    digit raises [ValueError]. *)
Definition int (c : ascii) : result Z :=
  if is_digit c then Ok (digit_value c) else Raise ValueError.

End Py.

Import Py.

Notation "x <- m ;; k" := (bind m (fun x => k))
  (at level 61, m at next level, right associativity).

(** ** The tokenizer: [regex_parse] *)

(** The characters [re.sub(r'[^\d/X]', '', data)] keeps. *)
Definition retained (c : ascii) : bool :=
  is_digit c || Ascii.eqb c "/" || Ascii.eqb c "X".

(** [f_list = list(re.sub(r'[^\d/X]', '', data))] *)
Definition f_list_of (data : string) : list ascii :=
  filter retained (list_ascii_of_string data).

(** The element expression of the comprehension,
    [10 - int(f_list[idx - 1]) if val is '/' else 10 if val is 'X' else int(val)]. *)
Definition throw_of (f_list : list ascii) (idx : Z) (val : ascii) : result Z :=
  if Ascii.eqb val "/" then
    prev <- getitem f_list (idx - 1) ;;
    d <- int prev ;;
    Ok (10 - d)
  else if Ascii.eqb val "X" then Ok 10
  else int val.

(** [... for idx, val in enumerate(f_list)] *)
Definition throw_at (f_list : list ascii) (p : Z * ascii) : result Z :=
  let '(idx, val) := p in throw_of f_list idx val.

Definition regex_parse (data : string) : result (list Z) :=
  let f_list := f_list_of data in
  comprehension (throw_at f_list) (enumerate f_list).

(** The strings [regex_parse] accepts.  No retained ['/'] directly follows
    a retained ['X'] or ['/']; [prev] is the character before the first one. *)
Fixpoint spares_follow_digits (prev : ascii) (f_list : list ascii) : bool :=
  match f_list with
  | [] => true
  | c :: rest =>
      (if Ascii.eqb c "/" then is_digit prev else true)
      && spares_follow_digits c rest
  end.

(** Every ['/'] of [data] can be resolved: it follows a digit, where the
    character before a leading ['/'] is the last retained one. *)
Definition resolvable (data : string) : bool :=
  let f_list := f_list_of data in
  spares_follow_digits (last f_list "/"%char) f_list.

(** ** The scorer: [score] *)

(** What one activation of [score] does: it returns, or it calls itself. *)
Inductive activation : Type :=
| Return (total : Z)
| Call (throws : list Z) (frame total : Z).

(** The body of [score], with the recursive calls left as [Call]. *)
Definition score_body (throws : list Z) (frame total : Z) : result activation :=
  if (frame >? 10) || (len throws =? 0) then
    Ok (Return total)
  else
    t0 <- getitem throws 0 ;;
    if t0 =? 10 then
      bonus <- (if len throws >=? 3 then Ok (sum (slice throws 1 3))
                else if len throws >? 1 then getitem throws 1
                else Ok 0) ;;
      Ok (Call (slice_from throws 1) (frame + 1) (total + 10 + bonus))
    else if sum (slice throws 0 2) =? 10 then
      bonus <- (if len throws >=? 3 then getitem throws 2 else Ok 0) ;;
      Ok (Call (slice_from throws 2) (frame + 1) (total + 10 + bonus))
    else
      let total := total + sum (slice throws 0 2) in
      Ok (Call (slice_from throws 2) (frame + 1) total).

(** Every recursive call is on a strictly shorter list: on [throws[1:]] or
    [throws[2:]] of a list that is not empty. *)
Ltac call_is_shorter throws :=
  unfold score_body, slice_from, len;
  destruct throws as [|? [|? [|? ?]]];
  unfold getitem; cbn -[Z.add sum slice Z.eqb Z.gtb Z.geb];
  repeat match goal with
    | |- context [if ?b then _ else _] => destruct b
    end;
  cbn [bind]; try discriminate;
  intros [= <- _ _]; cbn [List.length skipn]; lia.

#[local] Unset Equations With Funext.
Equations score (throws : list Z) (frame total : Z) : result Z
  by wf (List.length throws) lt :=
  score throws frame total with Logic.inspect (score_body throws frame total) := {
    | exist _ (Raise e) _ => Raise e
    | exist _ (Ok (Return v)) _ => Ok v
    | exist _ (Ok (Call throws' frame' total')) Hcall => score throws' frame' total' }.
Next Obligation. clear - Hcall. revert Hcall. call_is_shorter throws. Qed.

(** The number of recursive calls [score throws frame total] makes.  Each
    call is made by the previous activation, so this is how deep the
    recursion goes below the first activation. *)
Equations score_calls (throws : list Z) (frame total : Z) : nat
  by wf (List.length throws) lt :=
  score_calls throws frame total with Logic.inspect (score_body throws frame total) := {
    | exist _ (Ok (Call throws' frame' total')) Hcall =>
        S (score_calls throws' frame' total')
    | exist _ _ _ => 0%nat }.
Next Obligation. clear - Hcall. revert Hcall. call_is_shorter throws. Qed.

(** Lists of open frames: frame by frame, no two throws add up to 10. *)
Fixpoint open_frames (throws : list Z) : Prop :=
  match throws with
  | a :: b :: rest => a + b <> 10 /\ open_frames rest
  | _ => True
  end.

(** ** The entry point: [total_score] *)

Definition total_score (data : string) : result Z :=
  if String.eqb data "" then Ok 0
  else throws <- regex_parse data ;; score throws 1 0.

(** ** One frame at a time *)

(** What the frame at the head of [throws] adds to the total: the three
    branches of [score] below its exit test. *)
Definition frame_points (throws : list Z) : Z :=
  match throws with
  | [] => 0
  | a :: rest =>
      if a =? 10 then
        10 + match rest with
             | [] => 0
             | [b] => b
             | b :: c :: _ => b + c
             end
      else
        match rest with
        | [] => a
        | b :: rest' =>
            if a + b =? 10 then 10 + match rest' with [] => 0 | c :: _ => c end
            else a + b
        end
  end.

(** The throws left for the next frame: [throws[1:]] after a strike,
    [throws[2:]] otherwise. *)
Definition frame_rest (throws : list Z) : list Z :=
  match throws with
  | [] => []
  | a :: rest => if a =? 10 then rest else slice_from rest 1
  end.

(** ** The tokenizer as one pass *)

(** The value of one retained character, given the character before it. *)
Definition throw_after (prev val : ascii) : result Z :=
  if Ascii.eqb val "/" then d <- int prev ;; Ok (10 - d)
  else if Ascii.eqb val "X" then Ok 10
  else int val.

(** A left-to-right pass over the retained characters that carries the
    previous character instead of indexing into [f_list]. *)
Fixpoint scan (prev : ascii) (f_list : list ascii) : result (list Z) :=
  match f_list with
  | [] => Ok []
  | val :: rest =>
      v <- throw_after prev val ;;
      vs <- scan val rest ;;
      Ok (v :: vs)
  end.

(** ** The command line: [run_tests] and the script entry point *)

(** [print] appends one line to the standard output.  A run is the lines
    printed and how it ended. *)
Definition run : Type := list string * result unit.

(** ['%d' % n] *)
Definition format_d (n : Z) : string := NilZero.string_of_int (Z.to_int n).

(** ["Input: %s Total: %d" % (data, n)] *)
Definition input_line (data : string) (n : Z) : string :=
  ("Input: " ++ data ++ " Total: " ++ format_d n)%string.

(** ["Testing: %s = %d: %s" % (data, score, verdict)] *)
Definition testing_line (data : string) (expected : Z) (verdict : string) : string :=
  ("Testing: " ++ data ++ " = " ++ format_d expected ++ ": " ++ verdict)%string.

(** The table of [run_tests]: the expected total and the game. *)
Definition tests : list (Z * string) :=
  [ (300, "X-X-X-X-X-X-X-X-X-X-XX"%string);
    (90, "9-9-9-9-9-9-9-9-9-9-"%string);
    (150, "5/5/5/5/5/5/5/5/5/5/5"%string);
    (167, "X7/9-X-88/-6XXX81"%string) ].

(** The loop of [run_tests] over a table, [out] being what was printed
    before.  The [assert] fails with an [AssertionError] that the [except]
    clause catches and prints as [FAIL]; an exception of [total_score] is
    not an [AssertionError] and leaves the loop. *)
Fixpoint run_tests_on (table : list (Z * string)) (out : list string) : run :=
  match table with
  | [] => (out, Ok tt)
  | (expected, data) :: table' =>
      match total_score data with
      | Raise e => (out, Raise e)
      | Ok n =>
          let verdict := if expected =? n then "PASS"%string else "FAIL"%string in
          run_tests_on table' (out ++ [testing_line data expected verdict])
      end
  end.

Definition run_tests : run := run_tests_on tests [].

(** [for data in sys.argv[1:]: print ("Input: %s Total: %d" % ...)] *)
Fixpoint print_totals (args : list string) (out : list string) : run :=
  match args with
  | [] => (out, Ok tt)
  | data :: args' =>
      match total_score data with
      | Raise e => (out, Raise e)
      | Ok n => print_totals args' (out ++ [input_line data n])
      end
  end.

(** The script entry point, [argv] being [sys.argv]. *)
Definition main (argv : list string) : run :=
  if len argv >? 1 then print_totals (slice_from argv 1) []
  else run_tests.

(** * Properties *)

(** ** Termination measure *)

Lemma score_body_shorter throws frame total throws' frame' total' :
  score_body throws frame total = Ok (Call throws' frame' total') ->
  (List.length throws' < List.length throws)%nat.
Proof. call_is_shorter throws. Qed.

(** ** Unfolding [score] and [score_calls] along [score_body] *)

Lemma score_eq throws frame total :
  score throws frame total =
  match score_body throws frame total with
  | Raise e => Raise e
  | Ok (Return v) => Ok v
  | Ok (Call throws' frame' total') => score throws' frame' total'
  end.
Proof.
  rewrite score_equation_1.
  enough (forall r (H : score_body throws frame total = r),
             score_unfold_clause_1 throws frame total (exist _ r H) =
             match r with
             | Raise e => Raise e
             | Ok (Return v) => Ok v
             | Ok (Call throws' frame' total') => score throws' frame' total'
             end) as E by apply E.
  intros [[v|t f tt]|e] H; reflexivity.
Qed.

Lemma score_calls_eq throws frame total :
  score_calls throws frame total =
  match score_body throws frame total with
  | Ok (Call throws' frame' total') => S (score_calls throws' frame' total')
  | _ => 0%nat
  end.
Proof.
  rewrite score_calls_equation_1.
  enough (forall r (H : score_body throws frame total = r),
             score_calls_unfold_clause_1 throws frame total (exist _ r H) =
             match r with
             | Ok (Call throws' frame' total') => S (score_calls throws' frame' total')
             | _ => 0%nat
             end) as E by apply E.
  intros [[v|t f tt]|e] H; reflexivity.
Qed.

(** Induction along the recursive calls of [score]. *)
Lemma score_call_ind (P : list Z -> Z -> Z -> Prop) :
  (forall throws frame total,
      (forall throws' frame' total',
          score_body throws frame total = Ok (Call throws' frame' total') ->
          P throws' frame' total') ->
      P throws frame total) ->
  forall throws frame total, P throws frame total.
Proof.
  intros step throws.
  induction throws as [throws IH]
    using (well_founded_induction
             (Wf_nat.well_founded_ltof _ (@List.length Z))).
  intros frame total. apply step. intros t f tt H.
  apply IH. exact (score_body_shorter _ _ _ _ _ _ H).
Qed.

(** ** One activation of [score], case by case *)

Ltac zbool :=
  repeat match goal with
    | |- context [?a >? ?b] => rewrite (Z.gtb_ltb a b)
    | |- context [?a >=? ?b] => rewrite (Z.geb_leb a b)
    | |- context [?a <=? ?b] => destruct (Z.leb_spec a b); try lia
    | |- context [?a <? ?b] => destruct (Z.ltb_spec a b); try lia
    | |- context [?a =? ?b] => destruct (Z.eqb_spec a b); try lia
    end.

Lemma len_nil {A} : len (@nil A) = 0.
Proof. reflexivity. Qed.

Lemma len_cons {A} (a : A) l : len (a :: l) = len l + 1.
Proof. unfold len. cbn [List.length]. lia. Qed.

Lemma len_nonneg {A} (l : list A) : 0 <= len l.
Proof. unfold len. lia. Qed.

Lemma getitem_0 {A} (a : A) l : getitem (a :: l) 0 = Ok a.
Proof. reflexivity. Qed.

Lemma getitem_1 {A} (a b : A) l : getitem (a :: b :: l) 1 = Ok b.
Proof. reflexivity. Qed.

Lemma getitem_2 {A} (a b c : A) l : getitem (a :: b :: c :: l) 2 = Ok c.
Proof. reflexivity. Qed.

Ltac score_body_cases :=
  unfold score_body;
  rewrite ?getitem_2, ?getitem_1, ?getitem_0;
  unfold slice, slice_from, sum;
  cbn [skipn firstn Nat.sub fold_left];
  rewrite ?len_cons, ?len_nil;
  try match goal with l : list Z |- _ => pose proof (len_nonneg l) end;
  repeat (zbool; cbn [orb bind]);
  try (do 2 f_equal; lia).

Lemma score_body_exit throws frame total :
  frame > 10 \/ throws = [] -> score_body throws frame total = Ok (Return total).
Proof.
  intros [H | ->]; unfold score_body, len; cbn [List.length]; zbool;
    reflexivity.
Qed.

Lemma score_body_strike rest frame total :
  frame <= 10 ->
  score_body (10 :: rest) frame total =
  Ok (Call rest (frame + 1)
        (total + 10 + match rest with
                      | [] => 0
                      | [a] => a
                      | a :: b :: _ => a + b
                      end)).
Proof.
  intros Hf. destruct rest as [|a [|b rest]]; score_body_cases.
Qed.

Lemma score_body_spare a b rest frame total :
  frame <= 10 -> a <> 10 -> a + b = 10 ->
  score_body (a :: b :: rest) frame total =
  Ok (Call rest (frame + 1)
        (total + 10 + match rest with [] => 0 | c :: _ => c end)).
Proof.
  intros Hf Ha Hab. destruct rest as [|c rest]; score_body_cases.
Qed.

Lemma score_body_open a b rest frame total :
  frame <= 10 -> a <> 10 -> a + b <> 10 ->
  score_body (a :: b :: rest) frame total =
  Ok (Call rest (frame + 1) (total + (a + b))).
Proof.
  intros Hf Ha Hab. destruct rest as [|c rest]; score_body_cases.
Qed.

Lemma score_body_single a frame total :
  frame <= 10 -> a <> 10 ->
  score_body [a] frame total = Ok (Call [] (frame + 1) (total + a)).
Proof.
  intros Hf Ha. score_body_cases.
Qed.

(** No activation raises: every index the body reads is guarded. *)
Lemma score_body_ok throws frame total :
  exists a, score_body throws frame total = Ok a.
Proof.
  destruct (Z_le_gt_dec frame 10) as [Hf | Hf].
  2: { eexists. apply score_body_exit. now left. }
  destruct throws as [|a [|b rest]].
  - eexists. apply score_body_exit. now right.
  - destruct (Z.eq_dec a 10) as [-> | Ha]; eexists;
      [now apply score_body_strike | now apply score_body_single].
  - destruct (Z.eq_dec a 10) as [-> | Ha];
      [eexists; now apply score_body_strike|].
    destruct (Z.eq_dec (a + b) 10); eexists;
      [now apply score_body_spare | now apply score_body_open].
Qed.

(** What a recursive call looks like. *)
Lemma score_body_call throws frame total throws' frame' total' :
  score_body throws frame total = Ok (Call throws' frame' total') ->
  frame <= 10 /\ frame' = frame + 1 /\
  exists front, throws = front ++ throws' /\
                (List.length front = 1 \/ List.length front = 2)%nat.
Proof.
  destruct (Z_le_gt_dec frame 10) as [Hf | Hf].
  2: { rewrite score_body_exit by now left. discriminate. }
  intros H. split; [exact Hf|]. revert H.
  destruct throws as [|a [|b rest]].
  - rewrite score_body_exit by now right. discriminate.
  - destruct (Z.eq_dec a 10) as [-> | Ha].
    + rewrite score_body_strike by trivial.
      intros [= <- <- _]. split; [reflexivity|]. exists [10]; auto.
    + rewrite score_body_single by trivial.
      intros [= <- <- _]. split; [reflexivity|]. exists [a]; auto.
  - destruct (Z.eq_dec a 10) as [-> | Ha].
    { rewrite score_body_strike by trivial.
      intros [= <- <- _]. split; [reflexivity|]. exists [10]; auto. }
    destruct (Z.eq_dec (a + b) 10);
      [rewrite score_body_spare | rewrite score_body_open]; trivial;
      intros [= <- <- _]; (split; [reflexivity|]); exists [a; b]; auto.
Qed.

(** When an activation returns. *)
Lemma score_body_return throws frame total v :
  score_body throws frame total = Ok (Return v) ->
  v = total /\ (frame > 10 \/ throws = []).
Proof.
  destruct (Z_le_gt_dec frame 10) as [Hf | Hf].
  2: { rewrite score_body_exit by now left. intros [= <-]. auto. }
  destruct throws as [|a [|b rest]].
  - rewrite score_body_exit by now right. intros [= <-]. auto.
  - destruct (Z.eq_dec a 10) as [-> | Ha];
      [rewrite score_body_strike | rewrite score_body_single]; trivial;
      discriminate.
  - destruct (Z.eq_dec a 10) as [-> | Ha].
    { now rewrite score_body_strike. }
    destruct (Z.eq_dec (a + b) 10);
      [rewrite score_body_spare | rewrite score_body_open]; trivial;
      discriminate.
Qed.

(** ** [score], case by case *)

Lemma score_exit throws frame total :
  frame > 10 \/ throws = [] -> score throws frame total = Ok total.
Proof. intros H. now rewrite score_eq, score_body_exit. Qed.

Lemma score_strike rest frame total :
  frame <= 10 ->
  score (10 :: rest) frame total =
  score rest (frame + 1)
    (total + 10 + match rest with
                  | [] => 0
                  | [a] => a
                  | a :: b :: _ => a + b
                  end).
Proof. intros H. now rewrite score_eq, score_body_strike. Qed.

Lemma score_spare a b rest frame total :
  frame <= 10 -> a <> 10 -> a + b = 10 ->
  score (a :: b :: rest) frame total =
  score rest (frame + 1) (total + 10 + match rest with [] => 0 | c :: _ => c end).
Proof. intros. now rewrite score_eq, score_body_spare. Qed.

Lemma score_open a b rest frame total :
  frame <= 10 -> a <> 10 -> a + b <> 10 ->
  score (a :: b :: rest) frame total = score rest (frame + 1) (total + (a + b)).
Proof. intros. now rewrite score_eq, score_body_open. Qed.

Lemma score_single a frame total :
  frame <= 10 -> a <> 10 -> score [a] frame total = Ok (total + a).
Proof.
  intros. rewrite score_eq, score_body_single by trivial.
  apply score_exit. now right.
Qed.

(** [score] returns an integer on every list of integers. *)
Lemma score_returns throws frame total :
  exists v, score throws frame total = Ok v.
Proof.
  revert throws frame total. apply score_call_ind.
  intros throws frame total IH. rewrite score_eq.
  destruct (score_body_ok throws frame total) as [[v | t f tt] E]; rewrite E.
  - now exists v.
  - now apply IH.
Qed.

(** The recursion is as deep as there are frames left, at most. *)
Lemma score_calls_frames throws frame total :
  Z.of_nat (score_calls throws frame total) <= Z.max 0 (11 - frame).
Proof.
  revert throws frame total. apply score_call_ind.
  intros throws frame total IH. rewrite score_calls_eq.
  destruct (score_body throws frame total) as [[v | t f tt] | e] eqn:E;
    cbn [Z.of_nat]; try lia.
  specialize (IH _ _ _ eq_refl).
  apply score_body_call in E. destruct E as (Hf & -> & _). lia.
Qed.

(** It is also no deeper than the list is long. *)
Lemma score_calls_length throws frame total :
  (score_calls throws frame total <= List.length throws)%nat.
Proof.
  revert throws frame total. apply score_call_ind.
  intros throws frame total IH. rewrite score_calls_eq.
  destruct (score_body throws frame total) as [[v | t f tt] | e] eqn:E;
    try lia.
  specialize (IH _ _ _ eq_refl).
  apply score_body_shorter in E. lia.
Qed.

(** ** List comprehensions, [enumerate] and indexing *)

Section Comprehension.
Context {A B : Type} (f : A -> result B).

Lemma comprehension_Ok l ys :
  comprehension f l = Ok ys <-> Forall2 (fun x y => f x = Ok y) l ys.
Proof.
  revert ys. induction l as [|x l IH]; intros ys; cbn.
  - split.
    + intros [= <-]. constructor.
    + intros H. inversion H. reflexivity.
  - split.
    + destruct (f x) as [y|e] eqn:Ex; cbn; [|discriminate].
      destruct (comprehension f l) as [ys'|e]; cbn; [|discriminate].
      intros [= <-]. constructor; [exact Ex | now apply IH].
    + intros H. inversion H as [|x' y l' ys' Hxy Hrest]; subst.
      rewrite Hxy. cbn. apply IH in Hrest. rewrite Hrest. reflexivity.
Qed.

Lemma comprehension_Raise l e :
  comprehension f l = Raise e -> exists x, In x l /\ f x = Raise e.
Proof.
  induction l as [|x l IH]; cbn; [discriminate|].
  destruct (f x) as [y|e'] eqn:Ex; cbn.
  - destruct (comprehension f l) as [ys|e'']; cbn; [discriminate|].
    intros [= ->]. destruct IH as (x' & Hin & Hx'); eauto.
  - intros [= ->]. eauto.
Qed.
End Comprehension.

Lemma Forall2_nth_error_l {A B} (R : A -> B -> Prop) l ys i x :
  Forall2 R l ys -> nth_error l i = Some x ->
  exists y, nth_error ys i = Some y /\ R x y.
Proof.
  intros H. revert i. induction H as [|x' y l ys Hxy _ IH]; intros i.
  - destruct i; discriminate.
  - destruct i as [|i]; cbn.
    + intros [= ->]. eauto.
    + apply IH.
Qed.

Lemma nth_error_enumerate_from {A} (l : list A) k i :
  nth_error (enumerate_from k l) i =
  option_map (pair (k + Z.of_nat i)) (nth_error l i).
Proof.
  revert k i. induction l as [|x l IH]; intros k [|i]; cbn [enumerate_from nth_error option_map];
    try reflexivity.
  - do 2 f_equal. lia.
  - rewrite IH. destruct (nth_error l i); cbn; [|reflexivity].
    do 2 f_equal. lia.
Qed.

Lemma length_enumerate_from {A} (l : list A) k :
  List.length (enumerate_from k l) = List.length l.
Proof.
  revert k. induction l as [|x l IH]; intros k; cbn; [reflexivity|].
  now rewrite IH.
Qed.

Lemma In_enumerate {A} (l : list A) idx x :
  In (idx, x) (enumerate l) ->
  exists i, idx = Z.of_nat i /\ nth_error l i = Some x.
Proof.
  intros H. apply In_nth_error in H. destruct H as [i H].
  unfold enumerate in H. rewrite nth_error_enumerate_from in H.
  destruct (nth_error l i) as [x'|] eqn:E; [|discriminate].
  cbn in H. injection H as <- <-. exists i. auto.
Qed.

Lemma getitem_nonneg {A} (l : list A) i :
  0 <= i ->
  getitem l i = match nth_error l (Z.to_nat i) with
                | Some a => Ok a
                | None => Raise IndexError
                end.
Proof.
  intros H. unfold getitem.
  destruct (Z.ltb_spec i 0); [lia|].
  destruct (Z.ltb_spec i 0); [lia|]. reflexivity.
Qed.

Lemma getitem_neg {A} (l : list A) i :
  i < 0 -> 0 <= i + len l ->
  getitem l i = match nth_error l (Z.to_nat (i + len l)) with
                | Some a => Ok a
                | None => Raise IndexError
                end.
Proof.
  intros H H'. unfold getitem.
  destruct (Z.ltb_spec i 0); [|lia].
  destruct (Z.ltb_spec (i + len l) 0); [lia|]. reflexivity.
Qed.

Lemma getitem_of_nat {A} (l : list A) i a :
  nth_error l i = Some a -> getitem l (Z.of_nat i) = Ok a.
Proof.
  intros H. rewrite getitem_nonneg by lia. now rewrite Nat2Z.id, H.
Qed.

(** [l[-1]] is the last element. *)
Lemma getitem_last {A} (l : list A) d :
  l <> [] -> getitem l (-1) = Ok (last l d).
Proof.
  intros H. destruct (exists_last H) as (l' & a & ->).
  rewrite last_last, getitem_neg; unfold len; rewrite ?length_app;
    cbn [List.length]; try lia.
  replace (Z.to_nat (-1 + Z.of_nat (List.length l' + 1))) with (List.length l') by lia.
  rewrite nth_error_app2, Nat.sub_diag by lia. reflexivity.
Qed.

(** ** The tokenizer, character by character *)

Lemma int_Ok c d : int c = Ok d -> is_digit c = true /\ 0 <= d <= 9.
Proof.
  unfold int. destruct (is_digit c) eqn:E; [|discriminate].
  intros [= <-]. split; [reflexivity|].
  unfold digit_value. unfold is_digit in E. cbv zeta in E.
  apply andb_true_iff in E. destruct E as [E1 E2].
  apply Z.leb_le in E1, E2. lia.
Qed.

Lemma int_Raise c e : int c = Raise e -> is_digit c = false /\ e = ValueError.
Proof.
  unfold int. destruct (is_digit c); [discriminate|]. now intros [= <-].
Qed.

Lemma int_digit c : is_digit c = true -> int c = Ok (digit_value c).
Proof. unfold int. now intros ->. Qed.

Lemma throw_of_slash f_list idx :
  throw_of f_list idx "/" =
  (prev <- getitem f_list (idx - 1) ;; d <- int prev ;; Ok (10 - d)).
Proof. reflexivity. Qed.

Lemma throw_of_digit f_list idx c :
  is_digit c = true -> throw_of f_list idx c = int c.
Proof.
  intros H. unfold throw_of.
  destruct (Ascii.eqb_spec c "/") as [-> | _]; [discriminate|].
  destruct (Ascii.eqb_spec c "X") as [-> | _]; [discriminate|].
  reflexivity.
Qed.

(** A character that is neither ['/'] nor ['X'] and was retained is a digit. *)
Lemma throw_of_retained f_list idx c :
  retained c = true -> c <> "/"%char ->
  exists v, throw_of f_list idx c = Ok v.
Proof.
  intros H Hc. unfold throw_of.
  destruct (Ascii.eqb_spec c "/") as [-> | _]; [contradiction|].
  destruct (Ascii.eqb_spec c "X") as [-> | HX]; [eauto|].
  unfold retained in H.
  apply orb_true_iff in H. destruct H as [H | H].
  - apply orb_true_iff in H. destruct H as [H | H].
    + rewrite (int_digit _ H). eauto.
    + apply Ascii.eqb_eq in H. contradiction.
  - apply Ascii.eqb_eq in H. contradiction.
Qed.

(** Every throw the tokenizer emits is between 0 and 10. *)
Lemma throw_of_range f_list idx c v :
  throw_of f_list idx c = Ok v -> 0 <= v <= 10.
Proof.
  unfold throw_of.
  destruct (Ascii.eqb c "/").
  - destruct (getitem f_list (idx - 1)) as [prev|]; cbn [bind]; [|discriminate].
    destruct (int prev) as [d|] eqn:E; cbn [bind]; [|discriminate].
    intros H. apply int_Ok in E. assert (v = 10 - d) by congruence. lia.
  - destruct (Ascii.eqb c "X").
    + intros [= <-]. lia.
    + intros E. apply int_Ok in E. lia.
Qed.

(** The character before position [i], the last one when [i] is [0]. *)
Lemma getitem_prev {A} (l : list A) i a :
  nth_error l i = Some a ->
  exists prev, getitem l (Z.of_nat i - 1) = Ok prev.
Proof.
  intros H. destruct i as [|i].
  - exists (last l a). apply getitem_last. now destruct l.
  - assert (i < List.length l)%nat as Hi.
    { apply Nat.lt_succ_l, nth_error_Some. now rewrite H. }
    apply nth_error_Some in Hi.
    destruct (nth_error l i) as [prev|] eqn:E; [|contradiction].
    exists prev. replace (Z.of_nat (S i) - 1) with (Z.of_nat i) by lia.
    now apply getitem_of_nat.
Qed.

(** The only exception the tokenizer raises is [ValueError]. *)
Lemma throw_of_Raise f_list i c e :
  nth_error f_list i = Some c ->
  throw_of f_list (Z.of_nat i) c = Raise e -> e = ValueError.
Proof.
  intros H. unfold throw_of.
  destruct (Ascii.eqb c "/").
  - destruct (getitem_prev _ _ _ H) as [prev ->]. cbn [bind].
    destruct (int prev) as [d|e'] eqn:E; cbn [bind]; [discriminate|].
    intros [= <-]. now apply int_Raise in E.
  - destruct (Ascii.eqb c "X"); [discriminate|].
    intros E. now apply int_Raise in E.
Qed.

Lemma regex_parse_eq data :
  regex_parse data =
  comprehension (throw_at (f_list_of data)) (enumerate (f_list_of data)).
Proof. reflexivity. Qed.

Lemma regex_parse_nth data vs i c :
  regex_parse data = Ok vs ->
  nth_error (f_list_of data) i = Some c ->
  exists v, nth_error vs i = Some v /\
            throw_of (f_list_of data) (Z.of_nat i) c = Ok v.
Proof.
  rewrite regex_parse_eq, comprehension_Ok. intros H Hc.
  apply (Forall2_nth_error_l _ _ _ i (Z.of_nat i, c)) in H.
  - exact H.
  - unfold enumerate. rewrite nth_error_enumerate_from, Hc. reflexivity.
Qed.

Lemma regex_parse_length data vs :
  regex_parse data = Ok vs -> List.length vs = List.length (f_list_of data).
Proof.
  rewrite regex_parse_eq, comprehension_Ok. intros H.
  apply Forall2_length in H. rewrite <- H. unfold enumerate.
  now rewrite length_enumerate_from.
Qed.

Lemma regex_parse_Raise data e : regex_parse data = Raise e -> e = ValueError.
Proof.
  rewrite regex_parse_eq. intros H.
  apply comprehension_Raise in H. destruct H as ([idx c] & Hin & H).
  apply In_enumerate in Hin. destruct Hin as (i & -> & Hc).
  exact (throw_of_Raise _ _ _ _ Hc H).
Qed.

(** One character that cannot be converted makes the whole call raise. *)
Lemma regex_parse_Raise_at data i c e :
  nth_error (f_list_of data) i = Some c ->
  throw_of (f_list_of data) (Z.of_nat i) c = Raise e ->
  regex_parse data = Raise ValueError.
Proof.
  intros Hc H. destruct (regex_parse data) as [vs|e'] eqn:E.
  - destruct (regex_parse_nth _ _ _ _ E Hc) as (v & _ & Hv). congruence.
  - f_equal. exact (regex_parse_Raise _ _ E).
Qed.

(** ** The strings the tokenizer accepts *)

Lemma comprehension_cons_Ok {A B} (f : A -> result B) x l :
  (exists ys, comprehension f (x :: l) = Ok ys) <->
  (exists y, f x = Ok y) /\ (exists ys, comprehension f l = Ok ys).
Proof.
  cbn. split.
  - intros [ys H]. destruct (f x) as [y|]; cbn in H; [|discriminate].
    destruct (comprehension f l) as [ys'|]; cbn in H; [|discriminate]. eauto.
  - intros [[y ->] [ys ->]]. cbn. eauto.
Qed.

Lemma comprehension_scan l : forall pre prev,
  Forall (fun c => retained c = true) l ->
  (l <> [] -> getitem (pre ++ l) (len pre - 1) = Ok prev) ->
  (exists vs,
      comprehension (throw_at (pre ++ l)) (enumerate_from (len pre) l) = Ok vs)
  <-> spares_follow_digits prev l = true.
Proof.
  induction l as [|c l IH]; intros pre prev Hret Hprev.
  - cbn. split; eauto.
  - cbn [enumerate_from spares_follow_digits].
    rewrite comprehension_cons_Ok, andb_true_iff.
    specialize (Hprev ltac:(discriminate)).
    inversion Hret as [|? ? Hc Hl]; subst.
    assert (pre ++ c :: l = (pre ++ [c]) ++ l) as Eapp
        by now rewrite <- app_assoc.
    assert (len pre + 1 = len (pre ++ [c])) as Elen
        by (unfold len; rewrite length_app; cbn; lia).
    rewrite Elen.
    assert ((exists ys,
               comprehension (throw_at (pre ++ c :: l))
                 (enumerate_from (len (pre ++ [c])) l) = Ok ys)
            <-> spares_follow_digits c l = true) as Hrest.
    { rewrite Eapp. apply IH; [exact Hl|]. intros _.
      rewrite <- Elen, <- Eapp.
      replace (len pre + 1 - 1) with (Z.of_nat (List.length pre))
        by (unfold len; lia).
      apply getitem_of_nat. rewrite nth_error_app2, Nat.sub_diag by lia.
      reflexivity. }
    rewrite Hrest. cbn [throw_at].
    destruct (Ascii.eqb_spec c "/") as [-> | Hslash].
    + rewrite throw_of_slash, Hprev. cbn [bind].
      destruct (is_digit prev) eqn:Ed.
      * rewrite (int_digit _ Ed). cbn [bind]. split; [tauto|].
        intros [_ H]; eauto.
      * unfold int. rewrite Ed. cbn [bind]. split.
        -- intros [[y H] _]. discriminate.
        -- intros [H _]. discriminate.
    + split; [tauto|]. intros [_ H]. split; [|exact H].
      now apply throw_of_retained.
Qed.

Lemma f_list_retained data :
  Forall (fun c => retained c = true) (f_list_of data).
Proof.
  apply Forall_forall. intros c Hc. unfold f_list_of in Hc.
  now apply filter_In in Hc.
Qed.

(** [regex_parse] returns exactly on the resolvable strings. *)
Lemma regex_parse_defined data :
  (exists vs, regex_parse data = Ok vs) <-> resolvable data = true.
Proof.
  rewrite regex_parse_eq. unfold resolvable, enumerate.
  apply (comprehension_scan (f_list_of data) []).
  - apply f_list_retained.
  - intros H. now apply getitem_last.
Qed.

Lemma regex_parse_undefined data :
  resolvable data = false -> regex_parse data = Raise ValueError.
Proof.
  intros H. destruct (regex_parse data) as [vs|e] eqn:E.
  - assert (resolvable data = true) by (apply regex_parse_defined; eauto).
    congruence.
  - f_equal. exact (regex_parse_Raise _ _ E).
Qed.

Lemma total_score_defined data :
  resolvable data = true -> exists n, total_score data = Ok n.
Proof.
  intros H. unfold total_score. destruct (String.eqb data ""); [eauto|].
  apply regex_parse_defined in H. destruct H as [vs ->]. cbn [bind].
  apply score_returns.
Qed.

Lemma total_score_undefined data :
  resolvable data = false -> total_score data = Raise ValueError.
Proof.
  intros H. unfold total_score.
  destruct (String.eqb_spec data "") as [-> | _]; [discriminate|].
  now rewrite regex_parse_undefined.
Qed.

(** ** Scoring lists of non-negative throws *)

Lemma list_pair_ind {A} (P : list A -> Prop) :
  P [] -> (forall a, P [a]) -> (forall a b l, P l -> P (a :: b :: l)) ->
  forall l, P l.
Proof.
  intros Hnil Hone Hcons.
  fix IH 1. intros [|a [|b l]]; [exact Hnil | apply Hone | apply Hcons, IH].
Qed.

(** With open frames only, the total never decreases. *)
Lemma score_open_frames_ge throws : forall frame total,
  Forall (fun t => 0 <= t /\ t <> 10) throws -> open_frames throws ->
  exists v, score throws frame total = Ok v /\ total <= v.
Proof.
  induction throws as [| a | a b rest IH] using list_pair_ind;
    intros frame total Hall Hopen.
  - exists total. rewrite score_exit by now right. split; [reflexivity | lia].
  - destruct (Z_le_gt_dec frame 10) as [Hf | Hf].
    + inversion Hall as [|? ? [Ha Ha'] _]; subst.
      exists (total + a). rewrite score_single by trivial. split; [reflexivity | lia].
    + exists total. rewrite score_exit by now left. split; [reflexivity | lia].
  - destruct (Z_le_gt_dec frame 10) as [Hf | Hf].
    + inversion Hall as [|? ? [Ha Ha'] Hall']; subst.
      inversion Hall' as [|? ? [Hb Hb'] Hrest]; subst.
      destruct Hopen as [Hab Hopen].
      rewrite score_open by trivial.
      destruct (IH (frame + 1) (total + (a + b)) Hrest Hopen) as (v & -> & Hv).
      exists v. split; [reflexivity | lia].
    + exists total. rewrite score_exit by now left. split; [reflexivity | lia].
Qed.

(** With open frames only, a prefix scores no more than the whole list. *)
Lemma score_open_frames_prefix p : forall s frame total,
  Forall (fun t => 0 <= t /\ t <> 10) (p ++ s) -> open_frames (p ++ s) ->
  exists x y, score p frame total = Ok x /\
              score (p ++ s) frame total = Ok y /\ x <= y.
Proof.
  induction p as [| a | a b p IH] using list_pair_ind;
    intros s frame total Hall Hopen.
  - destruct (score_open_frames_ge _ frame total Hall Hopen) as (y & Hy & Hle).
    exists total, y. rewrite score_exit by now right. auto.
  - destruct (Z_le_gt_dec frame 10) as [Hf | Hf].
    2: { exists total, total. rewrite !score_exit by now left.
         repeat split; lia. }
    cbn [app] in *.
    inversion Hall as [|? ? [Ha Ha'] Hall']; subst.
    rewrite score_single by trivial.
    destruct s as [|b s].
    + exists (total + a), (total + a). rewrite score_single by trivial.
      repeat split; lia.
    + inversion Hall' as [|? ? [Hb Hb'] Hrest]; subst.
      destruct Hopen as [Hab Hopen].
      rewrite score_open by trivial.
      destruct (score_open_frames_ge s (frame + 1) (total + (a + b)) Hrest Hopen)
        as (y & -> & Hy).
      exists (total + a), y. repeat split; lia.
  - destruct (Z_le_gt_dec frame 10) as [Hf | Hf].
    2: { exists total, total. rewrite !score_exit by now left.
         repeat split; lia. }
    cbn [app] in *.
    inversion Hall as [|? ? [Ha Ha'] Hall']; subst.
    inversion Hall' as [|? ? [Hb Hb'] Hrest]; subst.
    destruct Hopen as [Hab Hopen].
    rewrite !score_open by trivial.
    apply IH; assumption.
Qed.

(** * The claims of the specification *)

(** ** C1: totality *)

(** C1, as stated, fails: on the input ['X/'] the tokenizer evaluates
    [int('X')] and [total_score] raises [ValueError]. *)
Lemma total_score_strike_then_spare_raises :
  total_score "X/" = Raise ValueError.
Proof. reflexivity. Qed.

(** C1 (amended).  [score] returns an integer on every list of integers,
    every frame index and every running total.  [regex_parse] and
    [total_score] return on [data] when every retained ['/'] directly follows
    a retained decimal digit, the last retained character standing before a
    leading ['/']; on every other string both raise [ValueError]. *)
Theorem total_score_returns_iff_resolvable (data : string) :
  (forall throws frame total, exists n, score throws frame total = Ok n) /\
  (resolvable data = true ->
   (exists vs, regex_parse data = Ok vs) /\ (exists n, total_score data = Ok n)) /\
  (resolvable data = false ->
   regex_parse data = Raise ValueError /\ total_score data = Raise ValueError).
Proof.
  split; [exact score_returns|]. split; intros H.
  - split; [now apply regex_parse_defined | now apply total_score_defined].
  - split; [now apply regex_parse_undefined | now apply total_score_undefined].
Qed.

Lemma total_score_returns_iff_resolvable_witness :
  (exists n, total_score "/5-X-34" = Ok n) /\
  total_score "5//" = Raise ValueError.
Proof.
  split.
  - destruct (total_score_returns_iff_resolvable "/5-X-34") as (_ & H & _).
    apply H. reflexivity.
  - destruct (total_score_returns_iff_resolvable "5//") as (_ & _ & H).
    apply H. reflexivity.
Defined.

(** ** C2: how a spare is resolved *)

(** C2, as stated, fails: tokenizing ['X/'] does not yield [[10, 0]], it
    raises [ValueError]. *)
Lemma regex_parse_strike_then_spare_raises :
  regex_parse "X/" = Raise ValueError.
Proof. reflexivity. Qed.

(** C2 (amended).  A retained ['/'] that directly follows a retained decimal
    digit is emitted as 10 minus that digit's value.  When the retained
    character before it is ['X'] or ['/'], [regex_parse] raises
    [ValueError]. *)
Theorem spare_is_ten_minus_previous_digit (data : string) (i : nat) (prev : ascii) :
  nth_error (f_list_of data) i = Some prev ->
  nth_error (f_list_of data) (S i) = Some "/"%char ->
  (is_digit prev = true ->
   throw_of (f_list_of data) (Z.of_nat (S i)) "/" = Ok (10 - digit_value prev) /\
   forall vs, regex_parse data = Ok vs ->
              nth_error vs (S i) = Some (10 - digit_value prev)) /\
  (is_digit prev = false -> regex_parse data = Raise ValueError).
Proof.
  intros Hprev Hslash.
  assert (throw_of (f_list_of data) (Z.of_nat (S i)) "/" =
          (d <- int prev ;; Ok (10 - d))) as E.
  { rewrite throw_of_slash.
    replace (Z.of_nat (S i) - 1) with (Z.of_nat i) by lia.
    now rewrite (getitem_of_nat _ _ _ Hprev). }
  split; intros Hd.
  - rewrite (int_digit _ Hd) in E. cbn [bind] in E. split; [exact E|].
    intros vs Hvs.
    destruct (regex_parse_nth _ _ _ _ Hvs Hslash) as (v & Hv & Hthrow).
    congruence.
  - apply (regex_parse_Raise_at data (S i) "/" ValueError Hslash).
    rewrite E. unfold int. now rewrite Hd.
Qed.

Lemma spare_is_ten_minus_previous_digit_witness :
  nth_error [3; 7; 10] 1 = Some (10 - 3) /\
  regex_parse "-3/X/"%string = Raise ValueError.
Proof.
  split.
  - destruct (spare_is_ten_minus_previous_digit "3/X" 0 "3") as [H _];
      [reflexivity | reflexivity |].
    destruct (H eq_refl) as [_ H']. apply (H' [3; 7; 10]). reflexivity.
  - destruct (spare_is_ten_minus_previous_digit "-3/X/" 2 "X") as [_ H];
      [reflexivity | reflexivity |].
    apply H. reflexivity.
Defined.

(** ** C3: the worked examples *)

(** C3.  The perfect game scores 300 and the all-spares game 150, but the
    mixed game ['X7/9-X-88/-6XXX81'] scores 168, not the 167 the
    self-test table of the program expects: the hyphens are dropped as
    separators, so they do not count as missed throws. *)
Theorem total_score_worked_examples :
  total_score "X-X-X-X-X-X-X-X-X-X-XX" = Ok 300 /\
  total_score "5/5/5/5/5/5/5/5/5/5/5" = Ok 150 /\
  regex_parse "X7/9-X-88/-6XXX81" = Ok [10; 7; 3; 9; 10; 8; 8; 2; 6; 10; 10; 10; 8; 1] /\
  total_score "X7/9-X-88/-6XXX81" = Ok 168.
Proof. repeat split; vm_compute; reflexivity. Qed.

(** ** C4: the strike rule *)

(** C4.  When the first throw is 10 and the frame index is at most 10,
    [score] adds 10 and the next two throws (the next one when only one
    follows, nothing when none follows) to the total, and calls itself on
    the list without its first throw, with the frame index plus one. *)
Theorem strike_rule (rest : list Z) (frame total : Z) :
  frame <= 10 ->
  let bonus := match rest with
               | [] => 0
               | [a] => a
               | a :: b :: _ => a + b
               end in
  score_body (10 :: rest) frame total
  = Ok (Call rest (frame + 1) (total + 10 + bonus)) /\
  score (10 :: rest) frame total = score rest (frame + 1) (total + 10 + bonus).
Proof.
  intros Hf bonus. split.
  - now apply score_body_strike.
  - now apply score_strike.
Qed.

Lemma strike_rule_witness :
  score [10; 3; 4] 1 0 = score [3; 4] (1 + 1) (0 + 10 + (3 + 4)).
Proof.
  apply (strike_rule [3; 4] 1 0). lia.
Defined.

(** ** C5: the spare rule *)

(** C5.  When the first throw is not 10, the first two throws add up to 10
    and the frame index is at most 10, [score] adds 10 and the third throw
    (nothing when there is none) to the total, and calls itself on the
    list without its first two throws, with the frame index plus one. *)
Theorem spare_rule (a b : Z) (rest : list Z) (frame total : Z) :
  frame <= 10 -> a <> 10 -> a + b = 10 ->
  let bonus := match rest with
               | [] => 0
               | c :: _ => c
               end in
  score_body (a :: b :: rest) frame total
  = Ok (Call rest (frame + 1) (total + 10 + bonus)) /\
  score (a :: b :: rest) frame total = score rest (frame + 1) (total + 10 + bonus).
Proof.
  intros Hf Ha Hab bonus. split.
  - now apply score_body_spare.
  - now apply score_spare.
Qed.

Lemma spare_rule_witness :
  score [6; 4; 7; 1] 3 20 = score [7; 1] (3 + 1) (20 + 10 + 7).
Proof.
  apply (spare_rule 6 4 [7; 1] 3 20); lia.
Defined.

(** ** C6: nothing retained, nothing scored *)

Lemma filter_none {A} (p : A -> bool) l :
  (forall x, In x l -> p x = false) -> filter p l = [].
Proof.
  induction l as [|x l IH]; intros H; cbn; [reflexivity|].
  rewrite (H x) by now left. apply IH. intros y Hy. apply H. now right.
Qed.

(** C6.  [total_score('')] is 0, and so is [total_score] of every string
    that holds no decimal digit, no ['X'] and no ['/']. *)
Theorem total_score_of_separators (data : string) :
  total_score "" = Ok 0 /\
  ((forall c, In c (list_ascii_of_string data) ->
              is_digit c = false /\ c <> "/"%char /\ c <> "X"%char) ->
   f_list_of data = [] /\ total_score data = Ok 0).
Proof.
  split; [reflexivity|]. intros H.
  assert (f_list_of data = []) as E.
  { apply filter_none. intros c Hc. destruct (H c Hc) as (Hd & Hs & Hx).
    unfold retained. rewrite Hd.
    destruct (Ascii.eqb_spec c "/"); [contradiction|].
    destruct (Ascii.eqb_spec c "X"); [contradiction|]. reflexivity. }
  split; [exact E|]. unfold total_score.
  destruct (String.eqb data ""); [reflexivity|].
  rewrite regex_parse_eq, E. cbn [enumerate enumerate_from comprehension bind].
  apply score_exit. now right.
Qed.

Lemma total_score_of_separators_witness :
  total_score "- -|,-" = Ok 0.
Proof.
  apply (total_score_of_separators "- -|,-").
  intros c Hc. cbn in Hc.
  repeat (destruct Hc as [<- | Hc];
          [repeat split; (reflexivity || discriminate)|]).
  destruct Hc.
Defined.

(** ** C7: the range of the throws *)

(** C7.  Whenever [regex_parse] returns, every throw of the list it
    returns is between 0 and 10. *)
Theorem throws_in_range (data : string) (vs : list Z) :
  regex_parse data = Ok vs -> Forall (fun v => 0 <= v <= 10) vs.
Proof.
  rewrite regex_parse_eq, comprehension_Ok.
  generalize (enumerate (f_list_of data)). intros l H.
  induction H as [|[idx c] v l vs Hv _ IH]; constructor; [|exact IH].
  exact (throw_of_range _ _ _ _ Hv).
Qed.

Lemma throws_in_range_witness :
  Forall (fun v => 0 <= v <= 10) [0; 10; 10; 9; 1].
Proof.
  apply (throws_in_range "0/-X-9/"). reflexivity.
Defined.

(** ** C8: termination and depth of the recursion *)

(** The bound of ten calls belongs to the frame indexes of a game, which
    start at 1: started below, at frame index 0, eleven open frames are
    scored by eleven nested recursive calls. *)
Lemma score_calls_from_frame_zero :
  score_calls (repeat 1 22) 0 0 = 11%nat.
Proof. reflexivity. Qed.

(** C8.  [score] terminates and returns on every list, frame index and
    running total.  Each recursive call removes one or two throws from the
    front and adds one to the frame index; no call is made once the frame
    index exceeds 10 or the list is empty.  The number of nested recursive
    calls is at most [11 - frame], hence at most 10 from every frame index
    of a game: [score] is entered at frame 1 and only ever passes
    [frame + 1] on. *)
Theorem score_terminates_within_frames (throws : list Z) (frame total : Z) :
  (exists v, score throws frame total = Ok v) /\
  (forall throws' frame' total',
      score_body throws frame total = Ok (Call throws' frame' total') ->
      frame' = frame + 1 /\
      exists front, throws = front ++ throws' /\
                    (List.length front = 1 \/ List.length front = 2)%nat) /\
  (frame > 10 \/ throws = [] ->
   score_body throws frame total = Ok (Return total) /\
   score_calls throws frame total = 0%nat) /\
  Z.of_nat (score_calls throws frame total) <= Z.max 0 (11 - frame) /\
  (1 <= frame -> (score_calls throws frame total <= 10)%nat).
Proof.
  split; [apply score_returns|].
  split; [intros t f tt H; now apply score_body_call in H|].
  split.
  { intros H. rewrite score_calls_eq, score_body_exit by exact H. auto. }
  pose proof (score_calls_frames throws frame total) as Hd.
  split; [exact Hd | lia].
Qed.

Lemma score_terminates_within_frames_witness :
  Nat.le (score_calls (repeat 10 12) 1 0) 10 /\
  score_calls [3; 4] 11 0 = 0%nat.
Proof.
  split.
  - destruct (score_terminates_within_frames (repeat 10 12) 1 0)
      as (_ & _ & _ & _ & H).
    apply H. lia.
  - destruct (score_terminates_within_frames [3; 4] 11 0)
      as (_ & _ & H & _).
    apply H. left. lia.
Defined.

(** ** C9: prefixes of open frames *)

(** C9.  When no throw of a list is 10 or negative and no two throws of a
    frame add up to 10, the score of every prefix of the list is at most
    the score of the list. *)
Theorem open_frames_prefix_monotone (prefix rest : list Z) :
  Forall (fun t => 0 <= t /\ t <> 10) (prefix ++ rest) ->
  open_frames (prefix ++ rest) ->
  exists x y, score prefix 1 0 = Ok x /\
              score (prefix ++ rest) 1 0 = Ok y /\ x <= y.
Proof. apply score_open_frames_prefix. Qed.

Lemma open_frames_prefix_monotone_witness :
  exists x y, score [3; 4; 5] 1 0 = Ok x /\
              score ([3; 4; 5] ++ [2; 9; 0]) 1 0 = Ok y /\ x <= y.
Proof.
  apply (open_frames_prefix_monotone [3; 4; 5] [2; 9; 0]).
  - repeat constructor; lia.
  - cbn. repeat split; lia.
Defined.

(** ** C10: a leading spare wraps around *)

(** C10.  Tokenizing ['/5'] yields [[5, 5]].  When the first retained
    character is ['/'], its throw is 10 minus [int] of the last retained
    character: whenever [regex_parse] returns, that character is a digit and
    the first throw is 10 minus its value, and when it is not a digit
    [regex_parse] raises [ValueError]. *)
Theorem leading_spare_wraps_around (data : string) (rest : list ascii) :
  regex_parse "/5" = Ok [5; 5] /\
  (f_list_of data = "/"%char :: rest ->
   let final := last (f_list_of data) "/"%char in
   throw_of (f_list_of data) 0 "/" = (d <- int final ;; Ok (10 - d)) /\
   (forall vs, regex_parse data = Ok vs ->
               is_digit final = true /\
               nth_error vs 0 = Some (10 - digit_value final)) /\
   (is_digit final = false -> regex_parse data = Raise ValueError)).
Proof.
  split; [reflexivity|]. intros Hf final.
  assert (throw_of (f_list_of data) 0 "/" = (d <- int final ;; Ok (10 - d))) as E.
  { rewrite throw_of_slash. change (0 - 1) with (-1).
    rewrite (getitem_last _ "/"%char) by (rewrite Hf; discriminate).
    reflexivity. }
  assert (nth_error (f_list_of data) 0 = Some "/"%char) as H0
      by now rewrite Hf.
  split; [exact E|]. split.
  - intros vs Hvs.
    destruct (regex_parse_nth _ _ _ _ Hvs H0) as (v & Hv & Hthrow).
    change (Z.of_nat 0) with 0 in Hthrow. rewrite E in Hthrow.
    unfold int in Hthrow. destruct (is_digit final); [|discriminate].
    cbn [bind] in Hthrow. split; [reflexivity|]. congruence.
  - intros Hd. apply (regex_parse_Raise_at data 0%nat "/" ValueError H0).
    change (Z.of_nat 0) with 0. rewrite E. unfold int. now rewrite Hd.
Qed.

Lemma leading_spare_wraps_around_witness :
  nth_error [7; 10; 3] 0 = Some (10 - digit_value "3").
Proof.
  destruct (leading_spare_wraps_around "/-X-3" ["X"; "3"]%char) as [_ H].
  destruct (H eq_refl) as (_ & H' & _).
  apply (H' [7; 10; 3]). reflexivity.
Defined.

(** * Further properties of the scorer *)

(** ** [score], one frame at a time *)

Lemma score_frame throws frame total :
  frame <= 10 -> throws <> [] ->
  score throws frame total =
  score (frame_rest throws) (frame + 1) (total + frame_points throws).
Proof.
  intros Hf Hne. destruct throws as [|a [|b rest]]; [contradiction| |];
    unfold frame_rest, frame_points, slice_from; cbn [skipn].
  - destruct (Z.eqb_spec a 10) as [-> | Ha].
    + rewrite score_strike by trivial. f_equal. lia.
    + rewrite score_single by trivial. rewrite score_exit by now right.
      reflexivity.
  - destruct (Z.eqb_spec a 10) as [-> | Ha].
    + rewrite score_strike by trivial. f_equal. lia.
    + destruct (Z.eqb_spec (a + b) 10) as [Hab | Hab].
      * rewrite score_spare by trivial. f_equal. lia.
      * rewrite score_open by trivial. reflexivity.
Qed.

Lemma frame_rest_shorter throws :
  throws <> [] -> (List.length (frame_rest throws) < List.length throws)%nat.
Proof.
  destruct throws as [|a [|b rest]]; [contradiction| |]; intros _;
    unfold frame_rest, slice_from; destruct (a =? 10); cbn; lia.
Qed.

(** Induction frame by frame. *)
Lemma frames_ind (P : list Z -> Prop) :
  P [] ->
  (forall throws, throws <> [] -> P (frame_rest throws) -> P throws) ->
  forall throws, P throws.
Proof.
  intros Hnil Hstep throws.
  induction throws as [throws IH]
    using (well_founded_induction
             (Wf_nat.well_founded_ltof _ (@List.length Z))).
  destruct throws as [|a rest]; [exact Hnil|].
  apply Hstep; [discriminate|]. apply IH. apply frame_rest_shorter. discriminate.
Qed.

Lemma frame_rest_Forall (P : Z -> Prop) throws :
  Forall P throws -> Forall P (frame_rest throws).
Proof.
  intros H. destruct throws as [|a [|b rest]]; [exact H| |];
    unfold frame_rest, slice_from; destruct (a =? 10); cbn [skipn];
    inversion H as [|? ? _ H']; subst; trivial.
  now inversion H'.
Qed.

Lemma frame_points_range throws :
  Forall (fun t => 0 <= t <= 10) throws -> 0 <= frame_points throws <= 30.
Proof.
  intros H. destruct throws as [|a [|b [|c rest]]]; cbn [frame_points];
    repeat match goal with
      | H : Forall _ (_ :: _) |- _ => inversion H; subst; clear H
      end;
    repeat match goal with
      | |- context [?x =? ?y] => destruct (Z.eqb_spec x y)
      end; lia.
Qed.

Lemma frame_points_nonneg throws :
  Forall (fun t => 0 <= t) throws -> 0 <= frame_points throws.
Proof.
  intros H. destruct throws as [|a [|b [|c rest]]]; cbn [frame_points];
    repeat match goal with
      | H : Forall _ (_ :: _) |- _ => inversion H; subst; clear H
      end;
    repeat match goal with
      | |- context [?x =? ?y] => destruct (Z.eqb_spec x y)
      end; lia.
Qed.

Lemma fold_left_add l : forall z, fold_left Z.add l z = z + fold_left Z.add l 0.
Proof.
  induction l as [|b l IH]; intros z; cbn [fold_left]; [lia|].
  rewrite (IH (z + b)), (IH (0 + b)). lia.
Qed.

Lemma sum_cons a l : sum (a :: l) = a + sum l.
Proof. unfold sum. cbn [fold_left]. rewrite fold_left_add. lia. Qed.

Lemma score_running_total throws : forall frame total,
  exists v, score throws frame 0 = Ok v /\
            score throws frame total = Ok (total + v).
Proof.
  induction throws as [|throws Hne IH] using frames_ind; intros frame total.
  - exists 0. rewrite !score_exit by now right. split; f_equal; lia.
  - destruct (Z_le_gt_dec frame 10) as [Hf | Hf].
    + rewrite (score_frame throws frame 0), (score_frame throws frame total) by trivial.
      destruct (IH (frame + 1) (0 + frame_points throws)) as (v & Hv & ->).
      destruct (IH (frame + 1) (total + frame_points throws)) as (v' & Hv' & ->).
      assert (v' = v) as -> by congruence.
      exists (frame_points throws + v). split; f_equal; lia.
    + exists 0. rewrite !score_exit by now left. split; f_equal; lia.
Qed.

Lemma score_range throws : forall frame total,
  Forall (fun t => 0 <= t <= 10) throws ->
  exists v, score throws frame total = Ok v /\
            total <= v <= total + 30 * Z.max 0 (11 - frame).
Proof.
  induction throws as [|throws Hne IH] using frames_ind;
    intros frame total Hall.
  - exists total. rewrite score_exit by now right. split; [reflexivity | lia].
  - destruct (Z_le_gt_dec frame 10) as [Hf | Hf].
    + rewrite score_frame by trivial.
      pose proof (frame_points_range _ Hall) as Hp.
      destruct (IH (frame + 1) (total + frame_points throws)
                  (frame_rest_Forall _ _ Hall)) as (v & -> & Hv).
      exists v. split; [reflexivity | lia].
    + exists total. rewrite score_exit by now left. split; [reflexivity | lia].
Qed.

Lemma score_ge_total throws : forall frame total,
  Forall (fun t => 0 <= t) throws ->
  exists v, score throws frame total = Ok v /\ total <= v.
Proof.
  induction throws as [|throws Hne IH] using frames_ind;
    intros frame total Hall.
  - exists total. rewrite score_exit by now right. split; [reflexivity | lia].
  - destruct (Z_le_gt_dec frame 10) as [Hf | Hf].
    + rewrite score_frame by trivial.
      pose proof (frame_points_nonneg _ Hall) as Hp.
      destruct (IH (frame + 1) (total + frame_points throws)
                  (frame_rest_Forall _ _ Hall)) as (v & -> & Hv).
      exists v. split; [reflexivity | lia].
    + exists total. rewrite score_exit by now left. split; [reflexivity | lia].
Qed.

(** The strike bonus of a prefix is at most that of the list. *)
Lemma strike_bonus_app p s :
  Forall (fun t => 0 <= t) (p ++ s) ->
  match p with [] => 0 | [a] => a | a :: b :: _ => a + b end
  <= match p ++ s with [] => 0 | [a] => a | a :: b :: _ => a + b end.
Proof.
  intros H. destruct p as [|a [|b p]]; cbn [app] in *.
  - destruct s as [|a [|b s]]; try lia.
    + inversion H; subst. lia.
    + inversion H as [|? ? ? H']; subst. inversion H'; subst. lia.
  - destruct s as [|b s]; [lia|].
    inversion H as [|? ? ? H']; subst. inversion H'; subst. lia.
  - lia.
Qed.

Lemma spare_bonus_app p s :
  Forall (fun t => 0 <= t) (p ++ s) ->
  match p with [] => 0 | c :: _ => c end
  <= match p ++ s with [] => 0 | c :: _ => c end.
Proof.
  intros H. destruct p as [|c p]; cbn [app] in *; [|lia].
  destruct s as [|c s]; [lia|]. inversion H; subst. lia.
Qed.

Lemma score_prefix_le n : forall p,
  (List.length p <= n)%nat ->
  forall s frame t1 t2,
    Forall (fun t => 0 <= t) (p ++ s) -> t1 <= t2 ->
    exists x y, score p frame t1 = Ok x /\
                score (p ++ s) frame t2 = Ok y /\ x <= y.
Proof.
  induction n as [|n IH]; intros p Hlen s frame t1 t2 Hall Ht.
  - destruct p; [|cbn in Hlen; lia]. cbn [app] in *.
    destruct (score_ge_total s frame t2 Hall) as (y & -> & Hy).
    exists t1, y. rewrite score_exit by now right.
    repeat split; lia.
  - destruct (Z_le_gt_dec frame 10) as [Hf | Hf].
    2: { exists t1, t2. rewrite !score_exit by now left. auto. }
    destruct p as [|a p]; cbn [app] in *.
    { destruct (score_ge_total s frame t2 Hall) as (y & -> & Hy).
      exists t1, y. rewrite score_exit by now right.
      repeat split; lia. }
    cbn [List.length] in Hlen.
    inversion Hall as [|? ? Ha Hall']; subst.
    destruct (Z.eq_dec a 10) as [-> | Ha10].
    { rewrite !score_strike by trivial.
      pose proof (strike_bonus_app p s Hall').
      apply IH; [lia | exact Hall' | lia]. }
    destruct p as [|b p]; cbn [app] in *.
    + rewrite score_single by trivial.
      destruct s as [|b s].
      * rewrite score_single by trivial. exists (t1 + a), (t2 + a).
        repeat split; lia.
      * inversion Hall' as [|? ? Hb Hall'']; subst.
        destruct (Z.eq_dec (a + b) 10) as [Hab | Hab].
        -- rewrite score_spare by trivial.
           pose proof (spare_bonus_app [] s Hall'') as Hbonus. cbn in Hbonus.
           destruct (score_ge_total s (frame + 1)
                       (t2 + 10 + match s with [] => 0 | c :: _ => c end) Hall'')
             as (y & -> & Hy).
           exists (t1 + a), y. repeat split; lia.
        -- rewrite score_open by trivial.
           destruct (score_ge_total s (frame + 1) (t2 + (a + b)) Hall'')
             as (y & -> & Hy).
           exists (t1 + a), y. repeat split; lia.
    + cbn [List.length] in Hlen.
      inversion Hall' as [|? ? Hb Hall'']; subst.
      destruct (Z.eq_dec (a + b) 10) as [Hab | Hab].
      * rewrite !score_spare by trivial.
        pose proof (spare_bonus_app p s Hall'').
        apply IH; [lia | exact Hall'' | lia].
      * rewrite !score_open by trivial.
        apply IH; [lia | exact Hall'' | lia].
Qed.

Lemma score_firstn n : forall m throws frame total,
  frame + Z.of_nat n = 11 -> (2 * n + 1 <= m)%nat ->
  score (firstn m throws) frame total = score throws frame total.
Proof.
  induction n as [|n IH]; intros m throws frame total Hf Hm.
  - rewrite !score_exit by (left; lia). reflexivity.
  - assert (frame <= 10) as Hf' by lia.
    destruct m as [|[|[|m]]]; try lia.
    destruct throws as [|a [|b [|c rest]]]; try reflexivity.
    cbn [firstn].
    destruct (Z.eq_dec a 10) as [-> | Ha].
    { rewrite !score_strike by trivial.
      apply (IH (S (S m)) (b :: c :: rest)); lia. }
    destruct (Z.eq_dec (a + b) 10) as [Hab | Hab].
    + rewrite !score_spare by trivial.
      apply (IH (S m) (c :: rest)); lia.
    + rewrite !score_open by trivial.
      apply (IH (S m) (c :: rest)); lia.
Qed.

Lemma score_open_frames_sum n : forall throws frame total,
  frame + Z.of_nat n = 11 ->
  Forall (fun t => t <> 10) throws -> open_frames throws ->
  score throws frame total = Ok (total + sum (firstn (2 * n) throws)).
Proof.
  induction n as [|n IH]; intros throws frame total Hf Hall Hopen.
  - rewrite score_exit by (left; lia). cbn. f_equal. lia.
  - assert (frame <= 10) as Hf' by lia.
    replace (2 * S n)%nat with (S (S (2 * n))) by lia.
    destruct throws as [|a [|b rest]].
    + rewrite score_exit by now right. cbn. f_equal. lia.
    + inversion Hall; subst. rewrite score_single by trivial.
      cbn [firstn]. rewrite sum_cons. cbn. f_equal. lia.
    + inversion Hall as [|? ? Ha Hall']; subst.
      inversion Hall' as [|? ? Hb Hrest]; subst.
      destruct Hopen as [Hab Hopen].
      rewrite score_open by trivial.
      rewrite (IH rest (frame + 1)) by (trivial; lia).
      cbn [firstn]. rewrite !sum_cons. f_equal. lia.
Qed.

(** * Further properties of the tokenizer *)

Lemma comprehension_is_scan l : forall pre prev,
  (l <> [] -> getitem (pre ++ l) (len pre - 1) = Ok prev) ->
  comprehension (throw_at (pre ++ l)) (enumerate_from (len pre) l) = scan prev l.
Proof.
  induction l as [|c l IH]; intros pre prev Hprev; [reflexivity|].
  specialize (Hprev ltac:(discriminate)).
  cbn [enumerate_from comprehension scan throw_at].
  assert (throw_of (pre ++ c :: l) (len pre) c = throw_after prev c) as ->.
  { unfold throw_of, throw_after. now rewrite Hprev. }
  assert (pre ++ c :: l = (pre ++ [c]) ++ l) as Eapp
      by now rewrite <- app_assoc.
  assert (len pre + 1 = len (pre ++ [c])) as Elen
      by (unfold len; rewrite length_app; cbn; lia).
  rewrite Elen, Eapp, (IH (pre ++ [c]) c); [reflexivity|].
  intros _. rewrite <- Elen, <- Eapp.
  replace (len pre + 1 - 1) with (Z.of_nat (List.length pre))
    by (unfold len; lia).
  apply getitem_of_nat. rewrite nth_error_app2, Nat.sub_diag by lia.
  reflexivity.
Qed.

Lemma regex_parse_is_scan data :
  regex_parse data = scan (last (f_list_of data) "/"%char) (f_list_of data).
Proof.
  rewrite regex_parse_eq. unfold enumerate.
  apply (comprehension_is_scan (f_list_of data) []).
  intros H. now apply getitem_last.
Qed.

Lemma regex_parse_range data vs :
  regex_parse data = Ok vs -> Forall (fun v => 0 <= v <= 10) vs.
Proof.
  rewrite regex_parse_eq, comprehension_Ok.
  generalize (enumerate (f_list_of data)). intros l H.
  induction H as [|[idx c] v l vs Hv _ IH]; constructor; [|exact IH].
  exact (throw_of_range _ _ _ _ Hv).
Qed.

(** The guard on the empty string returns what the pipeline would return. *)
Lemma total_score_pipeline data :
  total_score data = (throws <- regex_parse data ;; score throws 1 0).
Proof.
  unfold total_score. destruct (String.eqb_spec data "") as [-> | _];
    reflexivity.
Qed.

Lemma list_ascii_of_string_app s1 s2 :
  list_ascii_of_string (s1 ++ s2) =
  list_ascii_of_string s1 ++ list_ascii_of_string s2.
Proof.
  induction s1 as [|c s1 IH]; cbn; [reflexivity|]. now rewrite IH.
Qed.

Lemma f_list_of_separator s1 c s2 :
  retained c = false ->
  f_list_of (s1 ++ String c s2) = f_list_of (s1 ++ s2).
Proof.
  intros Hc. unfold f_list_of.
  rewrite !list_ascii_of_string_app, !filter_app. cbn [list_ascii_of_string filter].
  now rewrite Hc.
Qed.

Lemma regex_parse_same_f_list d1 d2 :
  f_list_of d1 = f_list_of d2 -> regex_parse d1 = regex_parse d2.
Proof. intros H. rewrite !regex_parse_eq. now rewrite H. Qed.

(** * Properties of the command line *)

Lemma print_totals_all args : forall out,
  Forall (fun data => resolvable data = true) args ->
  exists lines,
    print_totals args out = (out ++ lines, Ok tt) /\
    Forall2 (fun data line =>
               exists n, total_score data = Ok n /\ line = input_line data n)
      args lines.
Proof.
  induction args as [|data args IH]; intros out Hall.
  - exists []. cbn. rewrite app_nil_r. auto.
  - inversion Hall as [|? ? Hd Hall']; subst.
    destruct (total_score_defined _ Hd) as [n Hn].
    destruct (IH (out ++ [input_line data n]) Hall') as (lines & E & Hlines).
    exists (input_line data n :: lines). cbn [print_totals].
    rewrite Hn, E, <- app_assoc. split; [reflexivity|].
    constructor; eauto.
Qed.

Lemma print_totals_stop good bad rest : forall out,
  Forall (fun data => resolvable data = true) good ->
  resolvable bad = false ->
  exists lines,
    print_totals (good ++ bad :: rest) out = (out ++ lines, Raise ValueError) /\
    Forall2 (fun data line =>
               exists n, total_score data = Ok n /\ line = input_line data n)
      good lines.
Proof.
  induction good as [|data good IH]; intros out Hall Hbad.
  - exists []. cbn [app print_totals].
    rewrite (total_score_undefined _ Hbad), app_nil_r. auto.
  - inversion Hall as [|? ? Hd Hall']; subst.
    destruct (total_score_defined _ Hd) as [n Hn].
    destruct (IH (out ++ [input_line data n]) Hall' Hbad) as (lines & E & Hlines).
    exists (input_line data n :: lines). cbn [app print_totals].
    rewrite Hn, E, <- app_assoc. split; [reflexivity|].
    constructor; eauto.
Qed.

Lemma main_with_arguments prog data args :
  main (prog :: data :: args) = print_totals (data :: args) [].
Proof.
  unfold main. rewrite !len_cons.
  pose proof (len_nonneg args).
  rewrite Z.gtb_ltb. destruct (Z.ltb_spec 1 (len args + 1 + 1)); [|lia].
  reflexivity.
Qed.

Lemma run_tests_on_all table : forall out,
  Forall (fun test => resolvable (snd test) = true) table ->
  exists lines,
    run_tests_on table out = (out ++ lines, Ok tt) /\
    Forall2 (fun test line =>
               exists n, total_score (snd test) = Ok n /\
                         line = testing_line (snd test) (fst test)
                                  (if fst test =? n then "PASS" else "FAIL"))
      table lines.
Proof.
  induction table as [|[expected data] table IH]; intros out Hall.
  - exists []. cbn. rewrite app_nil_r. auto.
  - inversion Hall as [|? ? Hd Hall']; subst. cbn [snd] in Hd.
    destruct (total_score_defined _ Hd) as [n Hn].
    destruct (IH (out ++ [testing_line data expected
                            (if expected =? n then "PASS" else "FAIL")]) Hall')
      as (lines & E & Hlines).
    eexists (_ :: lines). cbn [run_tests_on].
    rewrite Hn. cbv zeta. rewrite E, <- app_assoc. split; [reflexivity|].
    constructor; [|exact Hlines]. exists n. cbn [fst snd]. auto.
Qed.

(** * Further results *)

(** ** The scorer *)

(** X1.  The open frame: when the first throw is not 10, the first two
    throws do not add up to 10 and the frame index is at most 10, [score]
    adds the two throws to the total and calls itself on the list without
    them, with the frame index plus one; no bonus is added. *)
Theorem open_frame_rule (a b : Z) (rest : list Z) (frame total : Z) :
  frame <= 10 -> a <> 10 -> a + b <> 10 ->
  score_body (a :: b :: rest) frame total
  = Ok (Call rest (frame + 1) (total + (a + b))) /\
  score (a :: b :: rest) frame total = score rest (frame + 1) (total + (a + b)).
Proof.
  intros Hf Ha Hab. split.
  - now apply score_body_open.
  - now apply score_open.
Qed.

Lemma open_frame_rule_witness :
  score [3; 4; 10; 2] 2 7 = score [10; 2] (2 + 1) (7 + (3 + 4)).
Proof.
  apply (open_frame_rule 3 4 [10; 2] 2 7); lia.
Defined.

(** X2.  A single remaining throw, whatever its value, is added to the
    total as it is when the frame index is at most 10: an abandoned game
    is scored, not rejected. *)
Theorem lone_throw_is_added (a frame total : Z) :
  frame <= 10 -> score [a] frame total = Ok (total + a).
Proof.
  intros Hf. destruct (Z.eq_dec a 10) as [-> | Ha].
  - rewrite score_strike by trivial. rewrite score_exit by now right.
    f_equal. lia.
  - now apply score_single.
Qed.

Lemma lone_throw_is_added_witness :
  score [5] 1 0 = Ok (0 + 5) /\ score [10] 10 40 = Ok (40 + 10).
Proof.
  split.
  - apply (lone_throw_is_added 5 1 0). lia.
  - apply (lone_throw_is_added 10 10 40). lia.
Defined.

(** X3.  The running total is only carried along: scoring from a total
    [total] gives [total] plus what scoring from 0 gives, for every list
    and every frame index. *)
Theorem running_total_is_additive (throws : list Z) (frame total : Z) :
  exists v, score throws frame 0 = Ok v /\
            score throws frame total = Ok (total + v).
Proof. apply score_running_total. Qed.

(** X4.  When every throw is between 0 and 10, each frame adds between 0
    and 30 points: the result lies between [total] and [total] plus 30 for
    each of the frames from [frame] to 10.  From frame 1 and total 0 it
    lies between 0 and 300. *)
Theorem score_at_most_thirty_per_frame (throws : list Z) (frame total : Z) :
  Forall (fun t => 0 <= t <= 10) throws ->
  (exists v, score throws frame total = Ok v /\
             total <= v <= total + 30 * Z.max 0 (11 - frame)) /\
  (exists v, score throws 1 0 = Ok v /\ 0 <= v <= 300).
Proof.
  intros H. split; [now apply score_range|].
  destruct (score_range throws 1 0 H) as (v & Hv & Hb).
  exists v. split; [exact Hv | lia].
Qed.

Lemma score_at_most_thirty_per_frame_witness :
  exists v, score (repeat 10 12) 1 0 = Ok v /\ 0 <= v <= 300.
Proof.
  apply (score_at_most_thirty_per_frame (repeat 10 12) 1 0).
  repeat constructor; lia.
Defined.

(** X5.  Whenever [total_score] returns, the total is between 0 and 300,
    whatever the string. *)
Theorem total_score_between_0_and_300 (data : string) (n : Z) :
  total_score data = Ok n -> 0 <= n <= 300.
Proof.
  rewrite total_score_pipeline.
  destruct (regex_parse data) as [vs|e] eqn:E; cbn [bind]; [|discriminate].
  intros Hn.
  destruct (score_range vs 1 0 (regex_parse_range _ _ E)) as (v & Hv & Hb).
  assert (n = v) by congruence. lia.
Qed.

Lemma total_score_between_0_and_300_witness :
  0 <= 168 <= 300.
Proof.
  apply (total_score_between_0_and_300 "X7/9-X-88/-6XXX81" 168).
  reflexivity.
Defined.

(** X6.  When no throw is negative, the score of a prefix of a list is at
    most the score of the list, strikes and spares included, from every
    frame index and total. *)
Theorem prefix_scores_no_more (prefix rest : list Z) (frame total : Z) :
  Forall (fun t => 0 <= t) (prefix ++ rest) ->
  exists x y, score prefix frame total = Ok x /\
              score (prefix ++ rest) frame total = Ok y /\ x <= y.
Proof.
  intros H.
  apply (score_prefix_le (List.length prefix) prefix (le_n _) rest frame
           total total H).
  lia.
Qed.

Lemma prefix_scores_no_more_witness :
  exists x y, score [10; 7; 3] 1 0 = Ok x /\
              score ([10; 7; 3] ++ [9; 0; 10]) 1 0 = Ok y /\ x <= y.
Proof.
  apply (prefix_scores_no_more [10; 7; 3] [9; 0; 10] 1 0).
  repeat constructor; lia.
Defined.

(** X7.  From frame 1, [score] reads the first 21 throws at most: the
    throws after them do not change the result.  The 21st can matter: the
    bonus throw of a spare in the tenth frame. *)
Theorem score_reads_21_throws (throws : list Z) (total : Z) :
  score (firstn 21 throws) 1 total = score throws 1 total /\
  score (firstn 20 (repeat 5 21)) 1 0 = Ok 145 /\
  score (repeat 5 21) 1 0 = Ok 150.
Proof.
  split; [|split; reflexivity].
  apply (score_firstn 10); lia.
Qed.

(** X8.  When no throw is 10 and no two throws of a frame add up to 10,
    the score from frame 1 is the sum of the first 20 throws. *)
Theorem open_frames_score_is_sum (throws : list Z) :
  Forall (fun t => t <> 10) throws -> open_frames throws ->
  score throws 1 0 = Ok (sum (firstn 20 throws)).
Proof.
  intros Hall Hopen.
  rewrite (score_open_frames_sum 10 throws 1 0) by (trivial; lia).
  f_equal.
Qed.

Lemma open_frames_score_is_sum_witness :
  score (repeat 9 10) 1 0 = Ok (sum (firstn 20 (repeat 9 10))).
Proof.
  apply (open_frames_score_is_sum (repeat 9 10)).
  - repeat constructor; lia.
  - cbn. repeat split; lia.
Defined.

(** ** The tokenizer *)

(** X9.  Whenever [regex_parse] returns, it returns one throw for each
    retained character, in the same order: a retained digit gives its
    value and a retained ['X'] gives 10, at the position of the
    character. *)
Theorem one_throw_per_retained_character (data : string) (vs : list Z) :
  regex_parse data = Ok vs ->
  List.length vs = List.length (f_list_of data) /\
  forall i c, nth_error (f_list_of data) i = Some c ->
              (is_digit c = true -> nth_error vs i = Some (digit_value c)) /\
              (c = "X"%char -> nth_error vs i = Some 10).
Proof.
  intros Hvs. split; [now apply regex_parse_length|].
  intros i c Hc.
  destruct (regex_parse_nth _ _ _ _ Hvs Hc) as (v & Hv & Hthrow).
  split.
  - intros Hd. rewrite (throw_of_digit _ _ _ Hd), (int_digit _ Hd) in Hthrow.
    congruence.
  - intros ->. cbn in Hthrow. congruence.
Qed.

Lemma one_throw_per_retained_character_witness :
  List.length [10; 7; 3] = List.length (f_list_of "X-7/").
Proof.
  apply (one_throw_per_retained_character "X-7/" [10; 7; 3]).
  reflexivity.
Defined.

(** X10.  [regex_parse] is a single pass from left to right over the
    retained characters that remembers the previous character, started
    with the last retained character as the previous one; the two agree on
    every string, exceptions included. *)
Theorem regex_parse_is_one_pass (data : string) :
  regex_parse data = scan (last (f_list_of data) "/"%char) (f_list_of data).
Proof. apply regex_parse_is_scan. Qed.

(** X11.  A character that is not retained can be inserted anywhere
    without changing what [regex_parse] and [total_score] return or
    raise. *)
Theorem separators_are_ignored (s1 s2 : string) (c : ascii) :
  retained c = false ->
  regex_parse (s1 ++ String c s2) = regex_parse (s1 ++ s2) /\
  total_score (s1 ++ String c s2) = total_score (s1 ++ s2).
Proof.
  intros Hc.
  assert (regex_parse (s1 ++ String c s2) = regex_parse (s1 ++ s2)) as E
      by now apply regex_parse_same_f_list, f_list_of_separator.
  split; [exact E|]. now rewrite !total_score_pipeline, E.
Qed.

Lemma separators_are_ignored_witness :
  total_score ("5/" ++ String "-" "X") = total_score ("5/" ++ "X").
Proof.
  apply (separators_are_ignored "5/" "X" "-"). reflexivity.
Defined.

(** ** The command line *)

(** X12.  Called with arguments that all tokenize, the script prints one
    line ["Input: <argument> Total: <total>"] for each argument, in the
    order of the arguments, and ends normally. *)
Theorem main_prints_one_line_per_argument
    (prog data : string) (args : list string) :
  Forall (fun d => resolvable d = true) (data :: args) ->
  exists lines,
    main (prog :: data :: args) = (lines, Ok tt) /\
    Forall2 (fun d line => exists n, total_score d = Ok n /\
                                     line = input_line d n)
      (data :: args) lines.
Proof.
  intros H. rewrite main_with_arguments.
  exact (print_totals_all (data :: args) [] H).
Qed.

Lemma main_prints_one_line_per_argument_witness :
  exists lines,
    main ["bowling_game_calc.py"; "X-5/"; "--"; "81"]%string = (lines, Ok tt) /\
    Forall2 (fun d line => exists n, total_score d = Ok n /\
                                     line = input_line d n)
      ["X-5/"; "--"; "81"]%string lines.
Proof.
  apply (main_prints_one_line_per_argument
           "bowling_game_calc.py" "X-5/" ["--"; "81"]%string).
  repeat constructor.
Defined.

(** X13.  An argument that does not tokenize stops the script with
    [ValueError]: the lines of the arguments before it have been printed,
    nothing is printed for it or for the arguments after it. *)
Theorem main_stops_at_first_bad_argument
    (prog bad : string) (good rest : list string) :
  Forall (fun d => resolvable d = true) good ->
  resolvable bad = false ->
  exists lines,
    main (prog :: good ++ bad :: rest) = (lines, Raise ValueError) /\
    Forall2 (fun d line => exists n, total_score d = Ok n /\
                                     line = input_line d n)
      good lines.
Proof.
  intros Hgood Hbad.
  destruct (good ++ bad :: rest) as [|data args] eqn:E.
  { now destruct good. }
  rewrite main_with_arguments, <- E.
  exact (print_totals_stop good bad rest [] Hgood Hbad).
Qed.

Lemma main_stops_at_first_bad_argument_witness :
  exists lines,
    main ("bowling_game_calc.py" :: ["X-5/"] ++ "X/" :: ["81"])%string
    = (lines, Raise ValueError) /\
    Forall2 (fun d line => exists n, total_score d = Ok n /\
                                     line = input_line d n)
      ["X-5/"%string] lines.
Proof.
  apply (main_stops_at_first_bad_argument
           "bowling_game_calc.py" "X/" ["X-5/"%string] ["81"%string]).
  - repeat constructor.
  - reflexivity.
Defined.

(** X14.  Over a table whose games all tokenize, the loop of [run_tests]
    prints one line per case, in order, and ends normally; the line says
    [PASS] when [total_score] returns the expected total and [FAIL]
    otherwise. *)
Theorem run_tests_reports_every_case (table : list (Z * string)) (out : list string) :
  Forall (fun test => resolvable (snd test) = true) table ->
  exists lines,
    run_tests_on table out = (out ++ lines, Ok tt) /\
    Forall2 (fun test line =>
               exists n, total_score (snd test) = Ok n /\
                         line = testing_line (snd test) (fst test)
                                  (if fst test =? n then "PASS" else "FAIL"))
      table lines.
Proof. apply run_tests_on_all. Qed.

Lemma run_tests_reports_every_case_witness :
  exists lines,
    run_tests_on tests [] = ([] ++ lines, Ok tt) /\
    Forall2 (fun test line =>
               exists n, total_score (snd test) = Ok n /\
                         line = testing_line (snd test) (fst test)
                                  (if fst test =? n then "PASS" else "FAIL"))
      tests lines.
Proof.
  apply (run_tests_reports_every_case tests []).
  repeat constructor.
Defined.

(** X15.  Called without arguments, the script runs the self-test: it
    prints four lines and ends normally; the first three cases pass and
    the fourth, the mixed game, fails. *)
Theorem main_without_arguments_runs_the_tests (prog : string) :
  main [prog] =
  ([ "Testing: X-X-X-X-X-X-X-X-X-X-XX = 300: PASS";
     "Testing: 9-9-9-9-9-9-9-9-9-9- = 90: PASS";
     "Testing: 5/5/5/5/5/5/5/5/5/5/5 = 150: PASS";
     "Testing: X7/9-X-88/-6XXX81 = 167: FAIL" ]%string,
   Ok tt).
Proof. vm_compute. reflexivity. Qed.
